(** * react-zod-safe-action: the action builder and the [useAction] hook

    A shallow embedding of [SafeAction] (the builder class) and of
    [useAction] (src/use-rsa.ts), with the properties of the
    specification stated and proved over it.

    - JavaScript values are an inductive type [value]; a thrown or
      rejected value is a [value].
    - A Zod schema is taken through the one capability the code uses,
      [safeParse].
    - Builder instances live in a store [heap], one cell per instance
      holding its private field [_schema]; the closure returned by
      [action] reads that field when it is called, as the source does.
    - User code (handler, [onSuccess], [onError]) is a function on an
      application state [U] that the library never looks into.
    - The React state cell of the hook is the list of values written to
      it by [setStatus], newest first; rendering and the batching of
      updates belong to React and are not modelled.
    - One call of [execute] is followed from its start to the point
      where it completes or stays suspended; what the action does to the
      application state is taken at the call. Overlapping calls and
      callbacks that call back into the hook are not modelled.

    [ReactSafeAction] (the second copy of the builder in the sources) is
    the same class under another name. *)

From stdpp Require Import base option list strings gmap pretty.

Set Default Proof Using "Type".
#[local] Set Warnings "-register-all".

(** ** JavaScript values *)

(** One segment of [issue.path]: Zod's paths are [(string | number)[]]. *)
Inductive PathSegment :=
  | PKey (k : string)
  | PIndex (i : N).

(** The two fields of a Zod issue that the library reads. *)
Record ZodIssue := mkIssue {
  path : list PathSegment;
  message : string
}.

(** Values. Numbers are restricted to integers (no NaN, no fractions).
    [VObj] is a plain object, given by the finite map of its own
    enumerable properties (the order of the keys is not kept);
    [VError] is an [Error] instance: its [message] is an own but
    non-enumerable property, [props] are the enumerable ones added to it;
    [VZodError] is an instance of [ZodError] with its [issues]. *)
Inductive value :=
  | VUndefined
  | VNull
  | VBool (b : bool)
  | VNum (n : Z)
  | VStr (s : string)
  | VObj (props : gmap string value)
  | VError (msg : string) (props : gmap string value)
  | VZodError (issues : list ZodIssue).

(** ToBoolean. *)
Definition truthy (v : value) : bool :=
  match v with
  | VUndefined | VNull => false
  | VBool b => b
  | VNum n => negb (n =? 0)%Z
  | VStr s => negb (String.eqb s "")
  | VObj _ | VError _ _ | VZodError _ => true
  end.

(** [error?.message]: [undefined] on [null], on [undefined] and on a
    primitive; the own property of a plain object; the message of an
    error. The branch that reads it is reached by values that are not
    [ZodError]s only. *)
Definition get_message (err : value) : value :=
  match err with
  | VObj props => default VUndefined (props !! "message")
  | VError msg _ => VStr msg
  | _ => VUndefined
  end.

(** The own enumerable properties, which the spread [{ ...error }]
    copies; a primitive has none. *)
Definition own_enumerable (err : value) : gmap string value :=
  match err with
  | VObj props => props
  | VError _ props => props
  | _ => ∅
  end.

(** ** The validation contract *)

(** What [safeParse] returns: [{ success: true, data }] or
    [{ success: false, error }] with [error] a [ZodError]. *)
Inductive SafeParseReturn :=
  | SafeParseSuccess (data : value)
  | SafeParseError (issues : list ZodIssue).

(** A schema, through the capability the library uses. *)
Record ZodType := mkZodType {
  safeParse : value -> SafeParseReturn
}.

(** [validationResult?.success] with [validationResult] possibly
    [undefined]. *)
Definition success (validationResult : option SafeParseReturn) : bool :=
  match validationResult with
  | Some (SafeParseSuccess _) => true
  | _ => false
  end.

(** [validationResult?.error]. *)
Definition error_of (validationResult : option SafeParseReturn) : value :=
  match validationResult with
  | Some (SafeParseError issues) => VZodError issues
  | _ => VUndefined
  end.

(** ** Synchronous calls and promises *)

(** How a synchronous call ends. *)
Inductive completion (A : Type) :=
  | Normal (a : A)
  | Throw (e : value).
Arguments Normal {A} a.
Arguments Throw {A} e.

(** The eventual state of a promise; [Pending] is a promise that never
    settles. *)
Inductive promise :=
  | Fulfilled (v : value)
  | Rejected (e : value)
  | Pending.

(** What a handler hands back: a promise, or (the builder types its
    handler as returning [any]) a plain value. *)
Inductive result :=
  | RPromise (p : promise)
  | RValue (v : value).

(** ** The builder: class [SafeAction] *)

(** Addresses of builder instances. *)
Abbreviation addr := nat (only parsing).

(** The store of builder instances: cell [a] holds the private field
    [_schema] of the instance at address [a] ([None] is [null]). *)
Abbreviation heap := (list (option ZodType)) (only parsing).

(** [this._schema]. *)
Definition get_schema (h : heap) (this : addr) : option ZodType :=
  mjoin (h !! this).

(** [new SafeAction(schema)]: the field initialiser [_schema = null],
    then the constructor body [if (schema) this._schema = schema]. A
    schema is an object, hence truthy; [None] is the omitted argument. *)
Definition SafeAction_new (schema : option ZodType) (h : heap) : addr * heap :=
  let this := length h in
  let h1 := h ++ [None] in
  let h2 := if bool_decide (is_Some schema) then <[this := schema]> h1 else h1 in
  (this, h2).

(** [this.schema(schema)]: [return new SafeAction(schema)]. *)
Definition schema (this : addr) (s2 : ZodType) (h : heap) : addr * heap :=
  SafeAction_new (Some s2) h.

Section Builder.

Context {U : Type}.

(** A user function called synchronously on the application state. *)
Definition UserFn (A B : Type) : Type := A -> U -> completion B * U.

(** A callable produced by the builder. It is called in the store of
    the moment of the call. *)
Definition Action : Type := heap -> UserFn value result.

(** [this.action(fn)], evaluated in store [h]. *)
Definition action (h : heap) (this : addr) (fn : UserFn value result) : Action :=
  if bool_decide (is_Some (get_schema h this)) then
    fun h' data u =>
      let validationResult := (fun s => safeParse s data) <$> get_schema h' this in
      if negb (success validationResult) then (Throw (error_of validationResult), u)
      else fn data u
  else
    fun _ => fn.

End Builder.

(** ** The invoker: hook [useAction] *)

Inductive InvocationStatus :=
  | Idle
  | Executing
  | Error
  | Success.

Global Instance InvocationStatus_eq_dec : EqDecision InvocationStatus.
Proof. solve_decision. Defined.

(** [issue.path.join(".")]: a string segment as it is, a numeric segment
    in decimal. *)
Definition segment_to_string (seg : PathSegment) : string :=
  match seg with
  | PKey k => k
  | PIndex i => pretty i
  end.

Definition join_path (p : list PathSegment) : string :=
  String.concat "." (segment_to_string <$> p).

(** [errors.validation[key] = message] on an object created by the
    literal [{}]. The messages are strings, and assigning a string to
    the key [__proto__] of such an object goes to the prototype setter,
    which ignores it: no property is created. *)
Definition assign (key msg : string) (o : gmap string string) : gmap string string :=
  if String.eqb key "__proto__" then o else <[key := msg]> o.

(** The [errors] object of the catch block. [request] has type [any] in
    the source and may end up holding any value. *)
Record NormalizedError := mkErrors {
  request : value;
  validation : gmap string string
}.

(** The argument of [onError]. *)
Record ErrorResponse := mkResponse {
  error : NormalizedError;
  input : value
}.

(** The function mapped over [error.issues], lines 31 to 33. *)
Definition record_issue (o : gmap string string) (issue : ZodIssue) : gmap string string :=
  assign (join_path (path issue)) (message issue) o.

(** The catch block of [execute], lines 29 to 38. In the object literal
    [{ message: error.message, ...error }] a property copied by the
    spread replaces the [message] written before it: the union takes
    the left map first. *)
Definition normalize (err : value) : NormalizedError :=
  let errors := {| request := VObj ∅; validation := ∅ |} in
  match err with
  | VZodError issues =>
      {| request := request errors;
         validation := fold_left record_issue issues (validation errors) |}
  | _ =>
      {| request :=
           if truthy (get_message err)
           then VObj (own_enumerable err ∪ {[ "message" := get_message err ]})
           else err;
         validation := validation errors |}
  end.

(** How the body of an async function ends: it completes, it throws, or
    it stays suspended at an [await] on a promise that never settles. *)
Inductive outcome (A : Type) :=
  | Done (a : A)
  | Raise (e : value)
  | Suspended.
Arguments Done {A} a.
Arguments Raise {A} e.
Arguments Suspended {A}.

Section Invoker.

Context {U : Type}.

(** [ActionPropsCallback] of src/types.ts. *)
Record ActionPropsCallback := mkCallback {
  onSuccess : option (UserFn (U:=U) value unit);
  onError : option (UserFn (U:=U) ErrorResponse unit)
}.

(** The state the hook works on: the values written to the state cell
    of [React.useState("idle")], newest first, and the application
    state. *)
Record World := mkWorld {
  writes : list InvocationStatus;
  app : U
}.

(** The current value of the state cell. *)
Definition status (w : World) : InvocationStatus := hd Idle (writes w).

Definition Async (A : Type) : Type := World -> outcome A * World.

Global Instance Async_ret : MRet Async := fun A a w => (Done a, w).

Global Instance Async_bind : MBind Async := fun A B k m w =>
  match m w with
  | (Done a, w') => k a w'
  | (Raise e, w') => (Raise e, w')
  | (Suspended, w') => (Suspended, w')
  end.

(** [try { body } catch (error) { handler }]. *)
Definition try_catch {A} (body : Async A) (handler : value -> Async A) : Async A :=
  fun w =>
    match body w with
    | (Raise e, w') => handler e w'
    | r => r
    end.

Definition setStatus (s : InvocationStatus) : Async unit :=
  fun w => (Done tt, {| writes := s :: writes w; app := app w |}).

(** A synchronous call of user code. *)
Definition call {A B} (f : UserFn A B) (a : A) : Async B :=
  fun w =>
    match f a (app w) with
    | (Normal b, u) => (Done b, {| writes := writes w; app := u |})
    | (Throw e, u) => (Raise e, {| writes := writes w; app := u |})
    end.

(** [f?.(a)] as a function: nothing happens when [f] is absent. *)
Definition optional {A} (f : option (UserFn (U:=U) A unit)) : UserFn (U:=U) A unit :=
  fun a u =>
    match f with
    | Some f => f a u
    | None => (Normal tt, u)
    end.

(** [await r]. *)
Definition await (r : result) : Async value :=
  fun w =>
    match r with
    | RValue v | RPromise (Fulfilled v) => (Done v, w)
    | RPromise (Rejected e) => (Raise e, w)
    | RPromise Pending => (Suspended, w)
    end.

(** The promise an async function returns for its body. The body of
    [execute] has no [return]: its promise fulfils with [undefined]. *)
Definition async (body : Async unit) (w : World) : promise * World :=
  match body w with
  | (Done _, w') => (Fulfilled VUndefined, w')
  | (Raise e, w') => (Rejected e, w')
  | (Suspended, w') => (Pending, w')
  end.

(** [reset], lines 17 to 19. *)
Definition reset : Async unit := setStatus Idle.

(** [execute], lines 21 to 47. *)
Definition execute (action : UserFn value result)
    (callback : option ActionPropsCallback) (payload : value)
  : World -> promise * World :=
  async (
    try_catch
      (setStatus Executing;;
       r ← call action payload;
       res ← await r;
       call (optional (callback ≫= onSuccess)) res;;
       setStatus Success)
      (fun err =>
         let errors := normalize err in
         call (optional (callback ≫= onError)) {| error := errors; input := payload |};;
         setStatus Error)).

(** What the hook returns at a render, line 49 (the two data fields;
    [execute] and [reset] are the functions above). *)
Record UseActionReturn := mkReturn {
  ret_status : InvocationStatus;
  loading : bool
}.

Definition useAction (w : World) : UseActionReturn :=
  {| ret_status := status w;
     loading := bool_decide (status w = Executing) |}.

End Invoker.

(** ** The operations of the builder as steps of the store *)

(** The public operations that touch the store are the constructor and
    [schema]; [action] and the calls of an [Action] only read it. *)
Inductive builder_step : heap -> heap -> Prop :=
  | step_new (s : option ZodType) (h : heap) :
      builder_step h (SafeAction_new s h).2
  | step_schema (this : addr) (s2 : ZodType) (h : heap) :
      builder_step h (schema this s2 h).2.

Definition heap_evolves : heap -> heap -> Prop := rtc builder_step.

(** A handler with a record of the arguments it was called with. *)
Definition traced {U : Type} (fn : UserFn (U:=U) value result)
  : UserFn (U:=list value * U) value result :=
  fun data cu =>
    let r := fn data cu.2 in
    (r.1, (cu.1 ++ [data], r.2)).

(** What [await action(payload)] yields, from the way the call of the
    action completed. *)
Definition settle (r : completion result) : outcome value :=
  match r with
  | Throw e => Raise e
  | Normal (RValue v) => Done v
  | Normal (RPromise (Fulfilled v)) => Done v
  | Normal (RPromise (Rejected e)) => Raise e
  | Normal (RPromise Pending) => Suspended
  end.

(** A callback that returns, whatever it is given. *)
Definition returns_normally {U A : Type} (f : UserFn (U:=U) A unit) : Prop :=
  forall a u, (f a u).1 = Normal tt.

(** ** Sample contract, handlers and callbacks *)

(** A contract in the manner of [z.object({ name: z.string() })]: it
    keeps the key [name] and drops every other key of the input. *)
Definition name_schema : ZodType :=
  {| safeParse := fun data =>
       match data with
       | VObj props =>
           match props !! "name" with
           | Some (VStr s) => SafeParseSuccess (VObj {[ "name" := VStr s ]})
           | Some _ => SafeParseError [mkIssue [PKey "name"] "Expected string"]
           | None => SafeParseError [mkIssue [PKey "name"] "Required"]
           end
       | _ => SafeParseError [mkIssue [] "Expected object"]
       end |}.

Definition ada_raw : value := VObj (<["name" := VStr "Ada"]> {[ "extra" := VNum 1 ]}).
Definition ada_parsed : value := VObj {[ "name" := VStr "Ada" ]}.
Definition no_name : value := VObj {[ "extra" := VNum 1 ]}.
Definition ok_output : value := VObj {[ "success" := VBool true ]}.

(** [async (data) => ({ success: true })]. *)
Definition ok_handler {U : Type} : UserFn (U:=U) value result :=
  fun _ u => (Normal (RPromise (Fulfilled ok_output)), u).

(** [async () => { throw new Error("boom") }]. *)
Definition boom_handler {U : Type} : UserFn (U:=U) value result :=
  fun _ u => (Normal (RPromise (Rejected (VError "boom" ∅))), u).

(** [() => new Promise(() => {})]: the promise never settles. *)
Definition pending_handler {U : Type} : UserFn (U:=U) value result :=
  fun _ u => (Normal (RPromise Pending), u).

(** What the sample callbacks write down. *)
Inductive CallbackEvent :=
  | SuccessCalled (data : value)
  | ErrorCalled (response : ErrorResponse).

(** Both callbacks record their argument and return. *)
Definition recording : ActionPropsCallback (U:=list CallbackEvent) :=
  {| onSuccess := Some (fun data log => (Normal tt, log ++ [SuccessCalled data]));
     onError := Some (fun response log => (Normal tt, log ++ [ErrorCalled response])) |}.

(** [onError] throws. *)
Definition failing_onError : ActionPropsCallback (U:=unit) :=
  {| onSuccess := None;
     onError := Some (fun _ u => (Throw (VError "onError failed" ∅), u)) |}.

(** [onSuccess] runs a Zod [parse] of its own on the output and that
    throws a [ZodError]; [onError] records its argument. *)
Definition total_issue : ZodIssue :=
  mkIssue [PKey "total"] "Expected number, received string".

Definition parsing_onSuccess : ActionPropsCallback (U:=list CallbackEvent) :=
  {| onSuccess := Some (fun _ log => (Throw (VZodError [total_issue]), log));
     onError := Some (fun response log => (Normal tt, log ++ [ErrorCalled response])) |}.

(** Two rules of one field rejected, as [z.string().min(8).regex(...)]
    reports for a short password without a digit. *)
Definition password_issues : list ZodIssue :=
  [ mkIssue [PKey "password"] "String must contain at least 8 character(s)";
    mkIssue [PKey "password"] "Invalid" ].

(** ** [execute] in two phases *)

Section Phases.

Context {U : Type}.

(** The catch block of [execute], lines 28 to 44, on the caught value. *)
Definition catch_block (callback : option (ActionPropsCallback (U:=U)))
    (payload : value) (err : value) : Async (U:=U) unit :=
  let errors := normalize err in
  call (optional (callback ≫= onError)) {| error := errors; input := payload |};;
  setStatus Error.

(** Where a call of [execute] stands when control goes back to its
    caller: the action threw and the catch block has run, so the promise
    of [execute] is settled; or the body waits at [await] for what the
    action returned. *)
Inductive started :=
  | Finished (p : promise)
  | Awaiting (r : result).

(** [execute] up to its [await], lines 23 to 25: the part that runs
    within the call. *)
Definition execute_start (action : UserFn (U:=U) value result)
    (callback : option (ActionPropsCallback (U:=U))) (payload : value)
    (w : World (U:=U)) : started * World (U:=U) :=
  match (setStatus Executing;; call action payload) w with
  | (Done r, w1) => (Awaiting r, w1)
  | (Raise e, w1) =>
      (Finished (async (catch_block callback payload e) w1).1,
       (async (catch_block callback payload e) w1).2)
  | (Suspended, w1) => (Finished Pending, w1)
  end.

(** [execute] from its [await] on, lines 25 to 44: the part that runs
    when the awaited result settles. *)
Definition execute_resume (callback : option (ActionPropsCallback (U:=U)))
    (payload : value) (r : result) : World (U:=U) -> promise * World (U:=U) :=
  async (
    try_catch
      (res ← await r;
       call (optional (callback ≫= onSuccess)) res;;
       setStatus Success)
      (catch_block callback payload)).

End Phases.

(** ** The builder under its other name: class [ReactSafeAction] *)

(** [new ReactSafeAction(schema)]. *)
Definition ReactSafeAction_new (schema : option ZodType) (h : heap) : addr * heap :=
  let this := length h in
  let h1 := h ++ [None] in
  let h2 := if bool_decide (is_Some schema) then <[this := schema]> h1 else h1 in
  (this, h2).

(** [this.schema(schema)]: [return new ReactSafeAction(schema)]. *)
Definition ReactSafeAction_schema (this : addr) (s2 : ZodType) (h : heap) : addr * heap :=
  ReactSafeAction_new (Some s2) h.

(** [this.action(fn)], evaluated in store [h]. *)
Definition ReactSafeAction_action {U : Type} (h : heap) (this : addr)
    (fn : UserFn (U:=U) value result) : Action (U:=U) :=
  if bool_decide (is_Some (get_schema h this)) then
    fun h' data u =>
      let validationResult := (fun s => safeParse s data) <$> get_schema h' this in
      if negb (success validationResult) then (Throw (error_of validationResult), u)
      else fn data u
  else
    fun _ => fn.

(** ** More samples *)


(** Resolves for an object with a [name], rejects for anything else. *)
Definition picky_handler {U : Type} : UserFn (U:=U) value result :=
  fun data u =>
    match data with
    | VObj props =>
        if bool_decide (is_Some (props !! "name"))
        then (Normal (RPromise (Fulfilled ok_output)), u)
        else (Normal (RPromise (Rejected (VError "boom" ∅))), u)
    | _ => (Normal (RPromise (Rejected (VError "boom" ∅))), u)
    end.

(** A second contract: the input must be an object with a number under
    [age]; the accepted input is returned as it is. *)
Definition age_schema : ZodType :=
  {| safeParse := fun data =>
       match data with
       | VObj props =>
           match props !! "age" with
           | Some (VNum _) => SafeParseSuccess data
           | Some _ => SafeParseError [mkIssue [PKey "age"] "Expected number"]
           | None => SafeParseError [mkIssue [PKey "age"] "Required"]
           end
       | _ => SafeParseError [mkIssue [] "Expected object"]
       end |}.

(** ** The builder: proofs *)

Lemma SafeAction_new_addr (s : option ZodType) (h : heap) :
  (SafeAction_new s h).1 = length h.
Proof. reflexivity. Qed.

Lemma SafeAction_new_length (s : option ZodType) (h : heap) :
  length (SafeAction_new s h).2 = S (length h).
Proof.
  unfold SafeAction_new; simpl.
  case_bool_decide; rewrite ?length_insert, length_app; simpl; lia.
Qed.

Lemma SafeAction_new_old (s : option ZodType) (h : heap) (a : addr) :
  a < length h -> (SafeAction_new s h).2 !! a = h !! a.
Proof.
  intros Ha. unfold SafeAction_new; simpl.
  case_bool_decide.
  - rewrite list_lookup_insert_ne by lia. by apply lookup_app_l.
  - by apply lookup_app_l.
Qed.

Lemma SafeAction_new_bound (s : option ZodType) (h : heap) :
  get_schema (SafeAction_new s h).2 (SafeAction_new s h).1 = s.
Proof.
  unfold get_schema, SafeAction_new; simpl.
  case_bool_decide as Hs.
  - rewrite list_lookup_insert_eq; [done|]. rewrite length_app; simpl; lia.
  - rewrite lookup_app_r, Nat.sub_diag by lia. simpl.
    destruct s as [c|]; [|done]. exfalso. apply Hs. by exists c.
Qed.

Lemma builder_step_old (h h' : heap) (a : addr) :
  builder_step h h' -> a < length h -> h' !! a = h !! a /\ a < length h'.
Proof.
  intros Hstep Ha. destruct Hstep; unfold schema.
  all: split; [by apply SafeAction_new_old | rewrite SafeAction_new_length; lia].
Qed.

Lemma heap_evolves_old (h h' : heap) (a : addr) :
  heap_evolves h h' -> a < length h -> h' !! a = h !! a.
Proof.
  intros Hev. induction Hev as [h|h h1 h2 Hstep _ IH]; [done|].
  intros Ha. destruct (builder_step_old _ _ a Hstep Ha) as [Heq Hlt].
  rewrite IH by done. exact Heq.
Qed.

Lemma get_schema_valid (h : heap) (this : addr) (c : ZodType) :
  get_schema h this = Some c -> this < length h.
Proof.
  unfold get_schema. intros Hs.
  destruct (h !! this) as [o|] eqn:Hl; [|done].
  by eapply lookup_lt_Some.
Qed.

Lemma get_schema_evolves (h h' : heap) (this : addr) (c : ZodType) :
  heap_evolves h h' -> get_schema h this = Some c -> get_schema h' this = Some c.
Proof.
  intros Hev Hs. unfold get_schema.
  rewrite (heap_evolves_old h h' this Hev); [exact Hs|].
  by eapply get_schema_valid.
Qed.

(** The closure built on a builder with a contract, called in a later
    store. *)
Lemma action_with_schema {U : Type} (h h' : heap) (this : addr) (c : ZodType)
    (fn : UserFn (U:=U) value result) (data : value) (u : U) :
  get_schema h this = Some c ->
  heap_evolves h h' ->
  action h this fn h' data u =
    match safeParse c data with
    | SafeParseSuccess _ => fn data u
    | SafeParseError issues => (Throw (VZodError issues), u)
    end.
Proof.
  intros Hs Hev. unfold action.
  rewrite bool_decide_eq_true_2 by (rewrite Hs; by eexists).
  rewrite (get_schema_evolves h h' this c Hev Hs). simpl.
  by destruct (safeParse c data).
Qed.

Lemma traced_eq {U : Type} (fn : UserFn (U:=U) value result) (data : value)
    (calls : list value) (u : U) :
  traced fn data (calls, u) = ((fn data u).1, (calls ++ [data], (fn data u).2)).
Proof. reflexivity. Qed.

(** C1, as amended. An action built on a builder with a contract, called
    (in any later store) on an input the contract accepts, runs the
    handler exactly once, on the input value itself as the caller passed
    it (the parsed value is not used), and its completion is the
    handler's, returned promise included. *)
Theorem action_accepted_forwards_input {U : Type} (h h' : heap) (this : addr)
    (c : ZodType) (fn : UserFn (U:=U) value result) (data parsed : value)
    (calls : list value) (u : U) :
  get_schema h this = Some c ->
  heap_evolves h h' ->
  safeParse c data = SafeParseSuccess parsed ->
  action h this fn h' data u = fn data u /\
  action h this (traced fn) h' data (calls, u)
    = ((fn data u).1, (calls ++ [data], (fn data u).2)).
Proof.
  intros Hs Hev Hok. split.
  - rewrite (action_with_schema h h' this c) by done. by rewrite Hok.
  - rewrite (action_with_schema h h' this c) by done. rewrite Hok.
    apply traced_eq.
Qed.

Lemma action_accepted_forwards_input_witness :
  get_schema [Some name_schema] 0 = Some name_schema /\
  heap_evolves [Some name_schema] [Some name_schema; Some name_schema] /\
  safeParse name_schema ada_raw = SafeParseSuccess ada_parsed /\
  action [Some name_schema] 0 (traced (ok_handler (U:=unit)))
         [Some name_schema; Some name_schema] ada_raw ([], tt)
    = (Normal (RPromise (Fulfilled ok_output)), ([ada_raw], tt)).
Proof.
  assert (Hev : heap_evolves [Some name_schema] [Some name_schema; Some name_schema])
    by exact (rtc_once _ _ (step_schema 0 name_schema [Some name_schema])).
  split; [reflexivity|]. split; [exact Hev|]. split; [reflexivity|].
  exact (proj2 (action_accepted_forwards_input
                  [Some name_schema] [Some name_schema; Some name_schema] 0
                  name_schema ok_handler ada_raw ada_parsed [] tt
                  eq_refl Hev eq_refl)).
Defined.

(** C1 as stated fails: the sample contract accepts an input and
    normalizes it to a different value, and the handler is called on the
    input, not on the normalized value. *)
Lemma handler_receives_raw_input :
  let b := SafeAction_new (Some name_schema) [] in
  safeParse name_schema ada_raw = SafeParseSuccess ada_parsed /\
  ada_parsed <> ada_raw /\
  (action b.2 b.1 (traced (ok_handler (U:=unit))) b.2 ada_raw ([], tt)).2.1 = [ada_raw] /\
  (action b.2 b.1 (traced (ok_handler (U:=unit))) b.2 ada_raw ([], tt)).2.1 <> [ada_parsed].
Proof. simpl. repeat split; discriminate. Qed.

(** C2. An action built on a builder with a contract, called (in any
    later store) on an input the contract rejects, does not call the
    handler and throws, as the completion of the call itself and not
    through a promise, the [ZodError] of the contract with its issues as
    reported. *)
Theorem action_rejected_throws {U : Type} (h h' : heap) (this : addr)
    (c : ZodType) (fn : UserFn (U:=U) value result) (data : value)
    (issues : list ZodIssue) (calls : list value) (u : U) :
  get_schema h this = Some c ->
  heap_evolves h h' ->
  safeParse c data = SafeParseError issues ->
  action h this fn h' data u = (Throw (VZodError issues), u) /\
  action h this (traced fn) h' data (calls, u) = (Throw (VZodError issues), (calls, u)).
Proof.
  intros Hs Hev Hrej.
  split; rewrite (action_with_schema h h' this c) by done; by rewrite Hrej.
Qed.

Lemma action_rejected_throws_witness :
  get_schema [Some name_schema] 0 = Some name_schema /\
  heap_evolves [Some name_schema] [Some name_schema; None] /\
  safeParse name_schema no_name = SafeParseError [mkIssue [PKey "name"] "Required"] /\
  action [Some name_schema] 0 (traced (ok_handler (U:=unit))) [Some name_schema; None] no_name ([], tt)
    = (Throw (VZodError [mkIssue [PKey "name"] "Required"]), ([], tt)).
Proof.
  assert (Hev : heap_evolves [Some name_schema] [Some name_schema; None])
    by exact (rtc_once _ _ (step_new None [Some name_schema])).
  split; [reflexivity|]. split; [exact Hev|]. split; [reflexivity|].
  exact (proj2 (action_rejected_throws
                  [Some name_schema] [Some name_schema; None] 0
                  name_schema ok_handler no_name _ [] tt
                  eq_refl Hev eq_refl)).
Defined.

(** C5. On a builder constructed without a contract, [action] returns
    the handler itself: a call, in whatever store and on whatever input,
    is one call of the handler on that input, and completes as the
    handler does. *)
Theorem action_without_schema_is_handler {U : Type} (h0 h' : heap)
    (fn : UserFn (U:=U) value result) (data : value) (calls : list value) (u : U) :
  let b := SafeAction_new None h0 in
  action b.2 b.1 fn = (fun _ => fn) /\
  action b.2 b.1 fn h' data u = fn data u /\
  action b.2 b.1 (traced fn) h' data (calls, u)
    = ((fn data u).1, (calls ++ [data], (fn data u).2)).
Proof.
  intros b.
  assert (Hfn : forall V (g : UserFn (U:=V) value result), action b.2 b.1 g = (fun _ => g)).
  { intros V g. unfold action, b. rewrite SafeAction_new_bound.
    rewrite bool_decide_eq_false_2; [done|]. by intros [? ?]. }
  split; [apply Hfn|]. split; by rewrite Hfn.
Qed.

(** C10. [schema] allocates a new builder bound to the contract and
    writes to no existing builder, the receiver included; and what an
    action does when called is the same in every store that the builder
    operations lead to from the one it was built in. *)
Theorem schema_returns_new_builder {U : Type} (h h2 : heap) (this : addr)
    (c : ZodType) (fn : UserFn (U:=U) value result) (data : value) (u : U) :
  this < length h ->
  heap_evolves (schema this c h).2 h2 ->
  let b' := (schema this c h).1 in
  let h' := (schema this c h).2 in
  h !! b' = None /\ b' <> this /\
  get_schema h' b' = Some c /\
  (forall a, a < length h -> h' !! a = h !! a) /\
  get_schema h' this = get_schema h this /\
  action h this fn h2 data u = action h this fn h data u /\
  action h' b' fn h2 data u = action h' b' fn h' data u.
Proof.
  intros Hthis Hev b' h'.
  assert (Hold : forall a, a < length h -> h' !! a = h !! a)
    by (intros a Ha; by apply SafeAction_new_old).
  assert (Hev0 : heap_evolves h h2)
    by (eapply rtc_l; [apply (step_schema this c h)|exact Hev]).
  assert (Hfix : forall k k2 a, heap_evolves k k2 -> a < length k ->
             action k a fn k2 data u = action k a fn k data u).
  { intros k k2 a Hk Ha. unfold action. case_bool_decide; [|done].
    unfold get_schema. by rewrite (heap_evolves_old k k2 a Hk Ha). }
  split; [apply lookup_ge_None_2; unfold b', schema; simpl; lia|].
  split; [unfold b', schema; simpl; lia|].
  split; [apply SafeAction_new_bound|].
  split; [exact Hold|].
  split; [unfold get_schema; by rewrite Hold|].
  split; [by apply Hfix|].
  apply Hfix; [exact Hev|].
  unfold h', b', schema. rewrite SafeAction_new_length. simpl. lia.
Qed.

Lemma schema_returns_new_builder_witness :
  0 < length [@None ZodType] /\
  heap_evolves (schema 0 name_schema [None]).2 [None; Some name_schema; None] /\
  [@None ZodType] !! 1 = None /\
  get_schema (schema 0 name_schema [None]).2 1 = Some name_schema /\
  get_schema (schema 0 name_schema [None]).2 0 = None /\
  action [None; Some name_schema] 1 (ok_handler (U:=unit)) [None; Some name_schema; None] no_name tt
    = (Throw (VZodError [mkIssue [PKey "name"] "Required"]), tt).
Proof.
  assert (Hlt : 0 < length [@None ZodType]) by (simpl; lia).
  assert (Hev : heap_evolves (schema 0 name_schema [None]).2 [None; Some name_schema; None])
    by exact (rtc_once _ _ (step_new None [None; Some name_schema])).
  pose proof (schema_returns_new_builder (U:=unit) [None] [None; Some name_schema; None]
                0 name_schema ok_handler no_name tt Hlt Hev) as H.
  simpl in H. destruct H as (H1 & _ & H3 & _ & H5 & _ & H7).
  split; [exact Hlt|]. split; [exact Hev|]. split; [exact H1|].
  split; [exact H3|]. split; [exact H5|exact H7].
Defined.

(** ** The error normalization: proofs *)

Lemma assign_lookup_eq (key msg : string) (o : gmap string string) :
  key <> "__proto__" -> assign key msg o !! key = Some msg.
Proof.
  intros Hk. unfold assign.
  destruct (String.eqb_spec key "__proto__"); [done|].
  apply lookup_insert_eq.
Qed.

Lemma assign_lookup_ne (key key' msg : string) (o : gmap string string) :
  key' <> key -> assign key' msg o !! key = o !! key.
Proof.
  intros Hk. unfold assign.
  destruct (String.eqb_spec key' "__proto__"); [done|].
  by apply lookup_insert_ne.
Qed.

Lemma assign_lookup_proto (key msg : string) (o : gmap string string) :
  assign key msg o !! "__proto__" = o !! "__proto__".
Proof.
  unfold assign.
  destruct (String.eqb_spec key "__proto__") as [->|Hne]; [done|].
  by apply lookup_insert_ne.
Qed.

Lemma record_issues_snoc (issues : list ZodIssue) (issue : ZodIssue)
    (o : gmap string string) :
  fold_left record_issue (issues ++ [issue]) o
    = record_issue (fold_left record_issue issues o) issue.
Proof. by rewrite fold_left_app. Qed.

Lemma record_issues_proto (issues : list ZodIssue) :
  fold_left record_issue issues ∅ !! "__proto__" = None.
Proof.
  induction issues as [|issue issues IH] using rev_ind; [done|].
  rewrite record_issues_snoc. unfold record_issue.
  by rewrite assign_lookup_proto.
Qed.

(** Splitting a list at one of its elements, seen from its last element. *)
Lemma split_at_snoc {A : Type} (l before after : list A) (x y : A) :
  before ++ y :: after = l ++ [x] ->
  (after = [] /\ before = l /\ y = x) \/
  (exists after', after = after' ++ [x] /\ l = before ++ y :: after').
Proof.
  intros Heq. destruct after as [|z after' _] using rev_ind.
  - left. apply app_inj_tail in Heq as [-> ->]. done.
  - right. exists after'.
    change (before ++ y :: after' ++ [z]) with (before ++ (y :: after') ++ [z]) in Heq.
    rewrite app_assoc in Heq. apply app_inj_tail in Heq as [<- ->]. done.
Qed.

(** The entry of a key is the message of the last issue whose joined
    path is that key. *)
Lemma record_issues_last (issues : list ZodIssue) (key msg : string) :
  key <> "__proto__" ->
  fold_left record_issue issues ∅ !! key = Some msg <->
  exists before issue after,
    issues = before ++ issue :: after /\
    join_path (path issue) = key /\ message issue = msg /\
    Forall (fun later => join_path (path later) <> key) after.
Proof.
  intros Hkey. induction issues as [|x issues IH] using rev_ind.
  - simpl. rewrite lookup_empty. split; [done|].
    intros (before & issue & after & Heq & _). by destruct before.
  - rewrite record_issues_snoc. unfold record_issue.
    destruct (decide (join_path (path x) = key)) as [Hx|Hx].
    + rewrite Hx, assign_lookup_eq by done. split.
      * intros [= <-]. exists issues, x, []. by repeat split.
      * intros (before & issue & after & Heq & Hk & Hm & Hlater).
        symmetry in Heq.
        apply split_at_snoc in Heq as [(-> & -> & ->)|(after' & -> & ->)].
        -- by rewrite Hm.
        -- apply Forall_app in Hlater as [_ Hlast].
           apply Forall_inv in Hlast. done.
    + rewrite assign_lookup_ne by done. rewrite IH. split.
      * intros (before & issue & after & -> & Hk & Hm & Hlater).
        exists before, issue, (after ++ [x]). repeat split; [|done..|].
        -- by rewrite <- app_assoc.
        -- apply Forall_app. split; [done|]. by apply Forall_singleton.
      * intros (before & issue & after & Heq & Hk & Hm & Hlater).
        symmetry in Heq.
        apply split_at_snoc in Heq as [(-> & -> & ->)|(after' & -> & ->)]; [done|].
        apply Forall_app in Hlater as [Hlater _].
        by exists before, issue, after'.
Qed.

(** The keys are the joined paths of the issues. *)
Lemma record_issues_dom (issues : list ZodIssue) (key : string) :
  key <> "__proto__" ->
  is_Some (fold_left record_issue issues ∅ !! key) <->
  exists issue, issue ∈ issues /\ join_path (path issue) = key.
Proof.
  intros Hkey. induction issues as [|x issues IH] using rev_ind.
  - simpl. rewrite lookup_empty. split.
    + by intros [? ?].
    + intros (issue & Hin & _). by apply elem_of_nil in Hin.
  - rewrite record_issues_snoc. unfold record_issue.
    destruct (decide (join_path (path x) = key)) as [Hx|Hx].
    + rewrite Hx, assign_lookup_eq by done. split; [|by eexists].
      intros _. exists x. split; [|done]. apply elem_of_app. right. by apply list_elem_of_singleton.
    + rewrite assign_lookup_ne by done. rewrite IH. split.
      * intros (issue & Hin & Hk). exists issue. split; [|done].
        apply elem_of_app. by left.
      * intros (issue & Hin & Hk). apply elem_of_app in Hin as [Hin|Hin].
        -- by exists issue.
        -- apply list_elem_of_singleton in Hin as ->. done.
Qed.

(** C3, as amended. Of the two sub-maps at most one is filled. For a
    [ZodError], [request] stays the empty object and [validation] has
    one entry per distinct joined path of the issues, holding the
    message of the last issue with that path (nothing under the key
    [__proto__]). For any other failure [validation] stays empty and
    [request] is the failure's enumerable fields under a [message] key
    when the failure has a truthy message, else the failure itself. *)
Theorem normalize_fills_one_side (err : value) :
  match err with
  | VZodError issues =>
      request (normalize err) = VObj ∅ /\
      (forall key, is_Some (validation (normalize err) !! key) <->
         key <> "__proto__" /\
         exists issue, issue ∈ issues /\ join_path (path issue) = key) /\
      (forall key msg, validation (normalize err) !! key = Some msg <->
         key <> "__proto__" /\
         exists before issue after,
           issues = before ++ issue :: after /\
           join_path (path issue) = key /\ message issue = msg /\
           Forall (fun later => join_path (path later) <> key) after)
  | _ =>
      validation (normalize err) = ∅ /\
      request (normalize err) =
        if truthy (get_message err)
        then VObj (own_enumerable err ∪ {[ "message" := get_message err ]})
        else err
  end.
Proof.
  destruct err as [| |b|n|s|props|msg props|issues]; try done.
  simpl. split; [done|]. split.
  - intros key. destruct (decide (key = "__proto__")) as [->|Hkey].
    + rewrite record_issues_proto. split; [by intros [? ?]|by intros [? _]].
    + rewrite record_issues_dom by done.
      split; [by intros ?; split|by intros [_ ?]].
  - intros key msg. destruct (decide (key = "__proto__")) as [->|Hkey].
    + rewrite record_issues_proto. split; [done|by intros [? _]].
    + rewrite record_issues_last by done.
      split; [by intros ?; split|by intros [_ ?]].
Qed.

(** C3 as stated fails. Two rejected rules of one field leave one entry
    and the first message is lost; and a failure that is an empty
    object, or a [ZodError] without issues, fills neither sub-map. *)
Lemma normalize_loses_issue_and_may_fill_nothing :
  length password_issues = 2 /\
  size (validation (normalize (VZodError password_issues))) = 1 /\
  validation (normalize (VZodError password_issues)) !! "password" = Some "Invalid" /\
  normalize (VObj ∅) = {| request := VObj ∅; validation := ∅ |} /\
  normalize (VZodError []) = {| request := VObj ∅; validation := ∅ |}.
Proof. repeat split; reflexivity. Qed.

(** ** The invoker: proofs *)

(** [execute] by cases on how the action and the callbacks complete;
    [caught e u] is the catch block run on failure [e] in application
    state [u], the state cell being at [executing]. *)
Lemma execute_cases {U : Type}
    (action : UserFn (U:=U) value result)
    (callback : option (ActionPropsCallback (U:=U)))
    (payload : value) (w : World (U:=U)) :
  execute action callback payload w =
    let caught (e : value) (u : U) :=
      match optional (callback ≫= onError) {| error := normalize e; input := payload |} u with
      | (Normal _, u') =>
          (Fulfilled VUndefined, {| writes := Error :: Executing :: writes w; app := u' |})
      | (Throw e', u') =>
          (Rejected e', {| writes := Executing :: writes w; app := u' |})
      end in
    match settle (action payload (app w)).1 with
    | Raise e => caught e (action payload (app w)).2
    | Suspended =>
        (Pending, {| writes := Executing :: writes w; app := (action payload (app w)).2 |})
    | Done v =>
        match optional (callback ≫= onSuccess) v (action payload (app w)).2 with
        | (Normal _, u2) =>
            (Fulfilled VUndefined,
             {| writes := Success :: Executing :: writes w; app := u2 |})
        | (Throw e, u2) => caught e u2
        end
    end.
Proof.
  unfold execute, async, try_catch, mbind, Async_bind, setStatus, call, await.
  simpl.
  destruct (action payload (app w)) as [[[[v|e|]|v]|e] u1]; simpl.
  all: repeat match goal with
       | |- context [optional ?f ?a ?u] => destruct (optional f a u) as [[[]|?] ?]; simpl
       end; reflexivity.
Qed.

(** With an [onError] that returns, the catch block completes. *)
Lemma caught_returns {U : Type} (callback : option (ActionPropsCallback (U:=U)))
    (payload : value) (ws : list InvocationStatus) (e : value) (u : U) :
  returns_normally (optional (callback ≫= onError)) ->
  match optional (callback ≫= onError) {| error := normalize e; input := payload |} u with
  | (Normal _, u') => (Fulfilled VUndefined, {| writes := Error :: ws; app := u' |})
  | (Throw e', u') => (Rejected e', {| writes := ws; app := u' |})
  end
  = (Fulfilled VUndefined,
     {| writes := Error :: ws;
        app := (optional (callback ≫= onError)
                  {| error := normalize e; input := payload |} u).2 |}).
Proof.
  intros Hret. specialize (Hret {| error := normalize e; input := payload |} u).
  destruct (optional (callback ≫= onError) _ u) as [[[]|e'] u']; [done|discriminate].
Qed.

(** C4, as amended. When the [onError] callback, if there is one,
    returns normally, the promise of [execute] is never rejected: it
    fulfils with [undefined], or it stays pending with the promise of
    the action. A failure of the action, thrown by the call or through
    its promise, is normalized and handed to [onError] together with the
    input. *)
Theorem execute_settles_without_rejection {U : Type}
    (action : UserFn (U:=U) value result)
    (callback : option (ActionPropsCallback (U:=U)))
    (payload : value) (w : World (U:=U)) :
  returns_normally (optional (callback ≫= onError)) ->
  let r := action payload (app w) in
  let done := execute action callback payload w in
  (forall e, done.1 <> Rejected e) /\
  (done.1 = Fulfilled VUndefined \/ done.1 = Pending) /\
  (done.1 = Pending <-> settle r.1 = Suspended) /\
  (forall e, settle r.1 = Raise e ->
     done = (Fulfilled VUndefined,
             {| writes := Error :: Executing :: writes w;
                app := (optional (callback ≫= onError)
                          {| error := normalize e; input := payload |} r.2).2 |})).
Proof.
  intros Hret r done. unfold done, r. rewrite execute_cases.
  assert (Hcaught := fun e u =>
    caught_returns callback payload (Executing :: writes w) e u Hret).
  simpl in Hcaught |- *.
  destruct (settle (action payload (app w)).1) as [v|e|].
  - destruct (optional (callback ≫= onSuccess) v _) as [[[]|e] u2];
      rewrite ?Hcaught; simpl; repeat split; try done; auto.
  - rewrite Hcaught. simpl. repeat split; try done; auto.
    by intros e0 [= ->].
  - simpl. repeat split; try done; auto.
Qed.

Lemma execute_settles_without_rejection_witness :
  returns_normally (optional (Some recording ≫= onError)) /\
  execute boom_handler (Some recording) no_name {| writes := []; app := [] |}
    = (Fulfilled VUndefined,
       {| writes := [Error; Executing];
          app := [ErrorCalled
                    {| error := {| request := VObj {[ "message" := VStr "boom" ]};
                                   validation := ∅ |};
                       input := no_name |}] |}).
Proof.
  assert (Hret : returns_normally (optional (Some recording ≫= onError)))
    by (intros a u; reflexivity).
  split; [exact Hret|].
  exact (proj2 (proj2 (proj2
           (execute_settles_without_rejection boom_handler (Some recording) no_name
              {| writes := []; app := [] |} Hret)))
           (VError "boom" ∅) eq_refl).
Defined.

(** C4 as stated fails: the action rejects, [onError] is called and
    throws, and the promise of [execute] is rejected with what it threw. *)
Lemma execute_rejects_when_onError_throws :
  execute boom_handler (Some failing_onError) no_name {| writes := []; app := tt |}
    = (Rejected (VError "onError failed" ∅), {| writes := [Executing]; app := tt |}).
Proof. reflexivity. Qed.

(** C6, as amended. From any state, when the action settles and the
    [onError] callback, if there is one, returns normally, [execute]
    writes [executing] and then exactly one more status: [success] when
    the action resolved and [onSuccess], if there is one, returned
    normally on the output (its effect is then in the application
    state); [error] in every other case. *)
Theorem execute_lands_on_success_or_error {U : Type}
    (action : UserFn (U:=U) value result)
    (callback : option (ActionPropsCallback (U:=U)))
    (payload : value) (w : World (U:=U)) :
  returns_normally (optional (callback ≫= onError)) ->
  settle (action payload (app w)).1 <> Suspended ->
  let r := action payload (app w) in
  let w' := (execute action callback payload w).2 in
  (writes w' = Success :: Executing :: writes w \/
   writes w' = Error :: Executing :: writes w) /\
  (status w' = Success \/ status w' = Error) /\
  status w' <> Idle /\ status w' <> Executing /\
  (status w' = Success <->
     exists v, settle r.1 = Done v /\
               (optional (callback ≫= onSuccess) v r.2).1 = Normal tt) /\
  (forall v, settle r.1 = Done v ->
     (optional (callback ≫= onSuccess) v r.2).1 = Normal tt ->
     app w' = (optional (callback ≫= onSuccess) v r.2).2).
Proof.
  intros Hret Hsettles r w'. unfold w', r, status. rewrite execute_cases.
  assert (Hcaught := fun e u =>
    caught_returns callback payload (Executing :: writes w) e u Hret).
  simpl in Hcaught |- *.
  destruct (settle (action payload (app w)).1) as [v|e|]; [| |done].
  - destruct (optional (callback ≫= onSuccess) v _) as [[[]|e] u2] eqn:Hs;
      rewrite ?Hcaught; simpl.
    + split; [by left|]. split; [by left|]. split; [done|]. split; [done|].
      split; [split; [intros _; exists v; by rewrite Hs|done]|].
      intros v' [= <-] _. by rewrite Hs.
    + split; [by right|]. split; [by right|]. split; [done|]. split; [done|].
      split; [split; [done|]|].
      * intros (v' & [= <-] & Hn). rewrite Hs in Hn. discriminate.
      * intros v' [= <-] Hn. rewrite Hs in Hn. discriminate.
  - rewrite Hcaught; simpl.
    split; [by right|]. split; [by right|]. split; [done|]. split; [done|].
    split; [split; [done|by intros (v' & ? & _)]|done].
Qed.

Lemma execute_lands_on_success_or_error_witness :
  returns_normally (optional (Some recording ≫= onError)) /\
  settle (ok_handler ada_raw (@nil CallbackEvent)).1 <> Suspended /\
  writes (execute ok_handler (Some recording) ada_raw {| writes := [Error]; app := [] |}).2
    = [Success; Executing; Error] /\
  app (execute ok_handler (Some recording) ada_raw {| writes := [Error]; app := [] |}).2
    = [SuccessCalled ok_output].
Proof.
  assert (Hret : returns_normally (optional (Some recording ≫= onError)))
    by (intros a u; reflexivity).
  assert (Hsettles : settle (ok_handler ada_raw (@nil CallbackEvent)).1 <> Suspended)
    by discriminate.
  split; [exact Hret|]. split; [exact Hsettles|].
  pose proof (execute_lands_on_success_or_error ok_handler (Some recording) ada_raw
                {| writes := [Error]; app := [] |} Hret Hsettles) as H.
  simpl in H. destruct H as (Hw & _ & _ & _ & _ & Happ).
  split.
  - destruct Hw as [Hw|Hw]; [exact Hw|discriminate Hw].
  - exact (Happ ok_output eq_refl eq_refl).
Defined.

(** C6 as stated fails: the action settles (it rejects), [onError]
    throws, and the status stays [executing]. *)
Lemma execute_stays_executing_when_onError_throws :
  settle (boom_handler no_name tt).1 = Raise (VError "boom" ∅) /\
  status (execute boom_handler (Some failing_onError) no_name
            {| writes := [Success]; app := tt |}).2 = Executing.
Proof. split; reflexivity. Qed.

(** C7, as amended. When the action resolves and [onSuccess] throws,
    the thrown value goes through the same normalization as any failure
    (into [validation] when it is a [ZodError], into [request]
    otherwise), [onError], if there is one, is called with it and with
    the input, and when that call returns normally the promise of
    [execute] fulfils and the status written last is [error]. *)
Theorem onSuccess_exception_is_caught {U : Type}
    (action : UserFn (U:=U) value result)
    (callback : option (ActionPropsCallback (U:=U)))
    (payload : value) (w : World (U:=U))
    (f : UserFn (U:=U) value unit) (v e : value) (u2 u3 : U) :
  settle (action payload (app w)).1 = Done v ->
  callback ≫= onSuccess = Some f ->
  f v (action payload (app w)).2 = (Throw e, u2) ->
  optional (callback ≫= onError) {| error := normalize e; input := payload |} u2
    = (Normal tt, u3) ->
  execute action callback payload w
    = (Fulfilled VUndefined, {| writes := Error :: Executing :: writes w; app := u3 |}) /\
  status (execute action callback payload w).2 = Error /\
  match e with
  | VZodError _ => request (normalize e) = VObj ∅
  | _ =>
      validation (normalize e) = ∅ /\
      request (normalize e) =
        if truthy (get_message e)
        then VObj (own_enumerable e ∪ {[ "message" := get_message e ]})
        else e
  end.
Proof.
  intros Hv Hf Hthrow Herr.
  assert (Hexec : execute action callback payload w
    = (Fulfilled VUndefined, {| writes := Error :: Executing :: writes w; app := u3 |})).
  { rewrite execute_cases, Hv, Hf. simpl. rewrite Hthrow, Herr. reflexivity. }
  split; [exact Hexec|]. split; [by rewrite Hexec|].
  by destruct e.
Qed.

Lemma onSuccess_exception_is_caught_witness :
  settle (ok_handler ada_raw (@nil CallbackEvent)).1 = Done ok_output /\
  execute ok_handler
      (Some {| onSuccess := Some (fun _ log => (Throw (VError "render failed" ∅), log));
               onError := onError recording |})
      ada_raw {| writes := []; app := [] |}
    = (Fulfilled VUndefined,
       {| writes := [Error; Executing];
          app := [ErrorCalled
                    {| error := {| request := VObj {[ "message" := VStr "render failed" ]};
                                   validation := ∅ |};
                       input := ada_raw |}] |}).
Proof.
  split; [reflexivity|].
  exact (proj1 (onSuccess_exception_is_caught ok_handler
           (Some {| onSuccess := Some (fun _ log => (Throw (VError "render failed" ∅), log));
                    onError := onError recording |})
           ada_raw {| writes := []; app := [] |}
           (fun _ log => (Throw (VError "render failed" ∅), log))
           ok_output (VError "render failed" ∅) [] _
           eq_refl eq_refl eq_refl eq_refl)).
Defined.

(** C7 as stated fails: [onSuccess] throws a [ZodError]; its issue goes
    to [validation] and [request] stays the empty object. *)
Lemma onSuccess_ZodError_goes_to_validation :
  execute ok_handler (Some parsing_onSuccess) ada_raw {| writes := []; app := [] |}
    = (Fulfilled VUndefined,
       {| writes := [Error; Executing];
          app := [ErrorCalled
                    {| error := {| request := VObj ∅;
                                   validation :=
                                     {[ "total" := "Expected number, received string" ]} |};
                       input := ada_raw |}] |}).
Proof. reflexivity. Qed.

(** C8. At every render, in whatever state, [loading] is true exactly
    when [status] is [executing]. *)
Theorem loading_iff_executing {U : Type} (w : World (U:=U)) :
  loading (useAction w) = true <-> ret_status (useAction w) = Executing.
Proof. unfold useAction; simpl. apply bool_decide_eq_true. Qed.

(** C9. [reset] completes and leaves the status [idle], from any state;
    a second [reset] leaves it [idle]; the application state is not
    touched. *)
Theorem reset_sets_idle {U : Type} (w : World (U:=U)) :
  (reset w).1 = Done tt /\
  status (reset w).2 = Idle /\
  status (reset (reset w).2).2 = Idle /\
  app (reset w).2 = app w.
Proof. by repeat split. Qed.

(** ** The scenarios of the specification, evaluated *)

(** A rejected input: [onError] gets the issue under its path, [request]
    is empty, and the status ends [error]. *)
Example rejected_input_reaches_onError :
  let b := SafeAction_new (Some name_schema) [] in
  execute (action b.2 b.1 ok_handler b.2) (Some recording) no_name
          {| writes := []; app := [] |}
    = (Fulfilled VUndefined,
       {| writes := [Error; Executing];
          app := [ErrorCalled
                    {| error := {| request := VObj ∅;
                                   validation := {[ "name" := "Required" ]} |};
                       input := no_name |}] |}).
Proof. reflexivity. Qed.

(** An accepted input: [onSuccess] gets the output of the handler and the
    status ends [success]. *)
Example accepted_input_reaches_onSuccess :
  let b := SafeAction_new (Some name_schema) [] in
  execute (action b.2 b.1 ok_handler b.2) (Some recording) ada_raw
          {| writes := []; app := [] |}
    = (Fulfilled VUndefined,
       {| writes := [Success; Executing]; app := [SuccessCalled ok_output] |}).
Proof. reflexivity. Qed.

(** A handler that never settles leaves the invoker at [executing], with
    [loading] true, until [reset]. *)
Example pending_action_stays_executing :
  let w := (execute pending_handler (Some recording) no_name
              {| writes := []; app := [] |}).2 in
  status w = Executing /\ loading (useAction w) = true /\
  status (reset w).2 = Idle /\ loading (useAction (reset w).2) = false.
Proof. by repeat split. Qed.

(** ** Further properties of the builder *)

Lemma action_no_schema {U : Type} (h : heap) (this : addr)
    (fn : UserFn (U:=U) value result) :
  get_schema h this = None -> action h this fn = (fun _ => fn).
Proof.
  intros Hnone. unfold action. rewrite Hnone.
  rewrite bool_decide_eq_false_2; [done|]. by intros [? ?].
Qed.

(** X1. Schemas do not accumulate along a chain of [schema] calls: the
    builder returned by the second call validates against the second
    contract alone, and the builder returned by the first call goes on
    validating against the first. *)
Theorem schema_chain_last_wins {U : Type} (h : heap) (this : addr)
    (c1 c2 : ZodType) (fn : UserFn (U:=U) value result) (data : value) (u : U) :
  let s1 := schema this c1 h in
  let s2 := schema s1.1 c2 s1.2 in
  s2.1 <> s1.1 /\
  action s2.2 s2.1 fn s2.2 data u =
    match safeParse c2 data with
    | SafeParseSuccess _ => fn data u
    | SafeParseError issues => (Throw (VZodError issues), u)
    end /\
  action s2.2 s1.1 fn s2.2 data u =
    match safeParse c1 data with
    | SafeParseSuccess _ => fn data u
    | SafeParseError issues => (Throw (VZodError issues), u)
    end.
Proof.
  intros s1 s2.
  assert (H1 : get_schema s1.2 s1.1 = Some c1) by apply SafeAction_new_bound.
  assert (H2 : get_schema s2.2 s2.1 = Some c2) by apply SafeAction_new_bound.
  assert (Hev : heap_evolves s1.2 s2.2)
    by exact (rtc_once _ _ (step_schema s1.1 c2 s1.2)).
  split.
  - unfold s2, s1, schema. rewrite !SafeAction_new_addr, SafeAction_new_length. lia.
  - split.
    + by apply action_with_schema.
    + apply action_with_schema; [|done].
      by apply (get_schema_evolves s1.2 s2.2).
Qed.

(** X2. A builder constructed without a contract stays without one
    whatever builders are created afterwards, derived from it or not:
    [action] on it goes on returning the handler itself. *)
Theorem base_builder_stays_unvalidated {U : Type} (h0 h1 : heap)
    (fn : UserFn (U:=U) value result) :
  heap_evolves (SafeAction_new None h0).2 h1 ->
  get_schema h1 (SafeAction_new None h0).1 = None /\
  action h1 (SafeAction_new None h0).1 fn = (fun _ => fn).
Proof.
  intros Hev.
  assert (Hnone : get_schema h1 (SafeAction_new None h0).1 = None).
  { unfold get_schema.
    rewrite (heap_evolves_old _ h1 _ Hev)
      by (rewrite SafeAction_new_length, SafeAction_new_addr; lia).
    apply (SafeAction_new_bound None h0). }
  split; [exact Hnone|]. by apply action_no_schema.
Qed.

Lemma base_builder_stays_unvalidated_witness :
  heap_evolves (SafeAction_new None []).2 [None; Some name_schema; Some age_schema] /\
  action [None; Some name_schema; Some age_schema] 0 (ok_handler (U:=unit)) [] no_name tt
    = (Normal (RPromise (Fulfilled ok_output)), tt).
Proof.
  assert (Hev : heap_evolves (SafeAction_new None []).2
                  [None; Some name_schema; Some age_schema]).
  { eapply rtc_l; [exact (step_schema 0 name_schema [None])|].
    exact (rtc_once _ _ (step_schema 0 age_schema [None; Some name_schema])). }
  split; [exact Hev|].
  exact (f_equal (fun act : Action => act [] no_name tt)
           (proj2 (base_builder_stays_unvalidated [] _ ok_handler Hev))).
Defined.

(** X3. [ReactSafeAction] validates as [SafeAction] does: an action of a
    builder made by its [schema] throws the contract's [ZodError] on a
    rejected input without running the handler and otherwise runs the
    handler on the input as given; an action of a builder made without
    a contract is the handler itself. *)
Theorem ReactSafeAction_validates {U : Type} (h : heap) (this : addr) (c : ZodType)
    (fn : UserFn (U:=U) value result) (data : value) (u : U) :
  let b := ReactSafeAction_schema this c h in
  let b0 := ReactSafeAction_new None h in
  ReactSafeAction_action b.2 b.1 fn b.2 data u =
    match safeParse c data with
    | SafeParseSuccess _ => fn data u
    | SafeParseError issues => (Throw (VZodError issues), u)
    end /\
  ReactSafeAction_action b0.2 b0.1 fn = (fun _ => fn).
Proof.
  intros b b0. split.
  - change (action b.2 b.1 fn b.2 data u = 
            match safeParse c data with
            | SafeParseSuccess _ => fn data u
            | SafeParseError issues => (Throw (VZodError issues), u)
            end).
    apply action_with_schema; [|apply rtc_refl].
    apply (SafeAction_new_bound (Some c) h).
  - change (action b0.2 b0.1 fn = (fun _ => fn)).
    apply action_no_schema. apply (SafeAction_new_bound None h).
Qed.

(** ** Further properties of the error normalization *)

Lemma assign_size (key msg : string) (o : gmap string string) :
  size (assign key msg o) <= S (size o).
Proof.
  unfold assign. destruct (String.eqb key "__proto__"); [lia|].
  rewrite map_size_insert. destruct (o !! key); simpl; lia.
Qed.



(** X4. [validation] never has more entries than the [ZodError] has
    issues. *)
Theorem validation_size_bound (issues : list ZodIssue) :
  size (validation (normalize (VZodError issues))) <= length issues.
Proof.
  simpl. induction issues as [|x issues IH] using rev_ind; [done|].
  rewrite record_issues_snoc, length_app. simpl. unfold record_issue at 1.
  pose proof (assign_size (join_path (path x)) (message x)
                (fold_left record_issue issues ∅)). lia.
Qed.

(** X5. When the joined paths of the issues are pairwise distinct and
    none of them is [__proto__], [validation] has exactly one entry per
    issue, and the entry under the joined path of an issue is the
    message of that issue. *)
Theorem distinct_paths_one_entry_each (issues : list ZodIssue) :
  NoDup ((fun issue => join_path (path issue)) <$> issues) ->
  "__proto__" ∉ (fun issue => join_path (path issue)) <$> issues ->
  size (validation (normalize (VZodError issues))) = length issues /\
  forall issue, issue ∈ issues ->
    validation (normalize (VZodError issues)) !! join_path (path issue)
      = Some (message issue).
Proof.
  simpl. induction issues as [|x issues IH] using rev_ind; intros Hnd Hproto.
  - split; [done|]. intros issue Hin. by apply elem_of_nil in Hin.
  - rewrite fmap_app in Hnd, Hproto. simpl in Hnd, Hproto.
    apply NoDup_app in Hnd as (Hnd & Hfresh & _).
    apply not_elem_of_app in Hproto as [Hproto Hx].
    assert (Hkx : join_path (path x) <> "__proto__").
    { intros Heq. apply Hx. rewrite Heq. by apply list_elem_of_singleton. }
    destruct (IH Hnd Hproto) as [IHsize IHmsg].
    assert (Hnew : forall issue, issue ∈ issues ->
              join_path (path issue) <> join_path (path x)).
    { intros issue Hin Heq.
      apply (Hfresh (join_path (path issue))).
      - by apply (list_elem_of_fmap_2 (fun issue => join_path (path issue))).
      - rewrite Heq. by apply list_elem_of_singleton. }
    assert (Hnone : fold_left record_issue issues ∅ !! join_path (path x) = None).
    { apply eq_None_not_Some. rewrite record_issues_dom by done.
      intros (issue & Hin & Heq). by apply (Hnew issue). }
    rewrite record_issues_snoc. unfold record_issue at 1 3. split.
    + unfold assign. destruct (String.eqb_spec (join_path (path x)) "__proto__"); [done|].
      rewrite map_size_insert_None by done.
      rewrite length_app, IHsize. simpl. lia.
    + intros issue Hin. apply elem_of_app in Hin as [Hin|Hin].
      * rewrite assign_lookup_ne; [by apply IHmsg|].
        intros Heq. by apply (Hnew issue).
      * apply list_elem_of_singleton in Hin as ->. by apply assign_lookup_eq.
Qed.

Lemma distinct_paths_one_entry_each_witness :
  NoDup ((fun issue => join_path (path issue)) <$>
           [mkIssue [PKey "email"] "Invalid email"; mkIssue [PKey "password"] "Too short"]) /\
  validation (normalize (VZodError
      [mkIssue [PKey "email"] "Invalid email"; mkIssue [PKey "password"] "Too short"]))
    !! "password" = Some "Too short".
Proof.
  assert (Hnd : NoDup ((fun issue => join_path (path issue)) <$>
           [mkIssue [PKey "email"] "Invalid email"; mkIssue [PKey "password"] "Too short"])).
  { apply NoDup_cons. split.
    - intros Hin. apply list_elem_of_singleton in Hin. discriminate Hin.
    - apply NoDup_singleton. }
  assert (Hproto : "__proto__" ∉ (fun issue => join_path (path issue)) <$>
           [mkIssue [PKey "email"] "Invalid email"; mkIssue [PKey "password"] "Too short"]).
  { intros Hin. apply elem_of_cons in Hin as [Hin|Hin]; [discriminate Hin|].
    apply list_elem_of_singleton in Hin. discriminate Hin. }
  split; [exact Hnd|].
  apply (proj2 (distinct_paths_one_entry_each _ Hnd Hproto)
           (mkIssue [PKey "password"] "Too short")).
  apply elem_of_cons. right. by apply list_elem_of_singleton.
Defined.







(** X8. For a failure that is not a [ZodError] and has a truthy
    [message] (an [Error] instance, whose message is not enumerable, or
    a plain object), [request] is a plain object: its [message] is the
    failure's message, every other key is an enumerable field of the
    failure with its value, and [validation] is empty. *)
Theorem request_carries_message (err : value) :
  match err with
  | VZodError _ => False
  | VError _ props => props !! "message" = None
  | _ => True
  end ->
  truthy (get_message err) = true ->
  exists fields : gmap string value,
    request (normalize err) = VObj fields /\
    fields !! "message" = Some (get_message err) /\
    (forall key, key <> "message" -> fields !! key = own_enumerable err !! key) /\
    validation (normalize err) = ∅.
Proof.
  intros Hwf Hmsg.
  exists (own_enumerable err ∪ {[ "message" := get_message err ]}).
  assert (Hother : forall key, key <> "message" ->
    (own_enumerable err ∪ {[ "message" := get_message err ]}) !! key
      = own_enumerable err !! key).
  { intros key Hkey. rewrite lookup_union_l; [done|].
    by apply lookup_singleton_ne. }
  destruct err as [| |b|n|s|props|msg props|issues]; try done; simpl in *.
  - rewrite Hmsg. repeat split; try done.
    destruct (props !! "message") as [m|] eqn:Hm; [|done].
    simpl. by rewrite (lookup_union_Some_l _ _ _ m).
  - rewrite Hmsg. repeat split; try done.
    rewrite lookup_union_r by done. apply lookup_singleton_eq.
Qed.

Lemma request_carries_message_witness :
  truthy (get_message (VError "boom" {[ "code" := VNum 500 ]})) = true /\
  exists fields : gmap string value,
    request (normalize (VError "boom" {[ "code" := VNum 500 ]})) = VObj fields /\
    fields !! "message" = Some (VStr "boom").
Proof.
  split; [reflexivity|].
  assert (Hwf : ({[ "code" := VNum 500 ]} : gmap string value) !! "message" = None)
    by reflexivity.
  destruct (request_carries_message (VError "boom" {[ "code" := VNum 500 ]})
              Hwf eq_refl) as (fields & Hreq & Hmsg & _).
  exists fields. split; [exact Hreq|exact Hmsg].
Defined.

(** ** Further properties of the invoker *)

(** [execute_resume] by cases on how the awaited result settles and on
    how the callbacks complete. *)
Lemma execute_resume_cases {U : Type}
    (callback : option (ActionPropsCallback (U:=U)))
    (payload : value) (r : result) (w : World (U:=U)) :
  execute_resume callback payload r w =
    let caught (e : value) (u : U) :=
      match optional (callback ≫= onError) {| error := normalize e; input := payload |} u with
      | (Normal _, u') => (Fulfilled VUndefined, {| writes := Error :: writes w; app := u' |})
      | (Throw e', u') => (Rejected e', {| writes := writes w; app := u' |})
      end in
    match settle (Normal r) with
    | Raise e => caught e (app w)
    | Suspended => (Pending, w)
    | Done v =>
        match optional (callback ≫= onSuccess) v (app w) with
        | (Normal _, u2) => (Fulfilled VUndefined, {| writes := Success :: writes w; app := u2 |})
        | (Throw e, u2) => caught e u2
        end
    end.
Proof.
  unfold execute_resume, catch_block, async, try_catch, mbind, Async_bind,
    setStatus, call, await.
  destruct w as [ws u]. simpl.
  destruct r as [[v|e|]|v]; simpl.
  all: repeat match goal with
       | |- context [optional ?f ?a ?u] => destruct (optional f a u) as [[[]|?] ?]; simpl
       end; reflexivity.
Qed.

(** [execute_start] by cases on how the call of the action completes. *)
Lemma execute_start_cases {U : Type}
    (action : UserFn (U:=U) value result)
    (callback : option (ActionPropsCallback (U:=U)))
    (payload : value) (w : World (U:=U)) :
  execute_start action callback payload w =
    match action payload (app w) with
    | (Normal r, u1) => (Awaiting r, {| writes := Executing :: writes w; app := u1 |})
    | (Throw e, u1) =>
        match optional (callback ≫= onError) {| error := normalize e; input := payload |} u1 with
        | (Normal _, u') =>
            (Finished (Fulfilled VUndefined),
             {| writes := Error :: Executing :: writes w; app := u' |})
        | (Throw e', u') =>
            (Finished (Rejected e'), {| writes := Executing :: writes w; app := u' |})
        end
    end.
Proof.
  unfold execute_start, catch_block, async, mbind, Async_bind, setStatus, call.
  simpl. destruct (action payload (app w)) as [[r|e] u1]; simpl; [done|].
  match goal with
  | |- context [optional ?f ?a ?u] => destruct (optional f a u) as [[[]|?] ?]
  end; reflexivity.
Qed.

(** X9. [execute] is its two phases run one after the other: the part
    up to the [await], and, when the action returned, the part from the
    [await] on, started in the state the first part left. *)
Theorem execute_is_start_then_resume {U : Type}
    (action : UserFn (U:=U) value result)
    (callback : option (ActionPropsCallback (U:=U)))
    (payload : value) (w : World (U:=U)) :
  execute action callback payload w =
    match execute_start action callback payload w with
    | (Finished p, w1) => (p, w1)
    | (Awaiting r, w1) => execute_resume callback payload r w1
    end.
Proof.
  rewrite execute_cases, execute_start_cases.
  destruct (action payload (app w)) as [[r|e] u1]; simpl.
  - by rewrite execute_resume_cases.
  - match goal with
    | |- context [optional ?f ?a ?u] => destruct (optional f a u) as [[[]|?] ?]
    end; reflexivity.
Qed.

(** X10. Two overlapping calls of [execute] on one invoker: both start,
    then the second settles, then the first. With an [onError] that
    returns, the state cell receives [executing] twice, then the outcome
    of the second call, then the outcome of the first: the status that
    stays is that of the call that settled last, not of the call made
    last. *)
Theorem overlapping_calls_last_settled_wins {U : Type}
    (action : UserFn (U:=U) value result)
    (callback : option (ActionPropsCallback (U:=U)))
    (p1 p2 : value) (r1 r2 : result) (w0 w1 w2 : World (U:=U)) :
  returns_normally (optional (callback ≫= onError)) ->
  execute_start action callback p1 w0 = (Awaiting r1, w1) ->
  execute_start action callback p2 w1 = (Awaiting r2, w2) ->
  settle (Normal r1) <> Suspended ->
  settle (Normal r2) <> Suspended ->
  let w3 := (execute_resume callback p2 r2 w2).2 in
  let w4 := (execute_resume callback p1 r1 w3).2 in
  exists s1 s2,
    writes w4 = s1 :: s2 :: Executing :: Executing :: writes w0 /\
    status w4 = s1 /\
    (s1 = Success \/ s1 = Error) /\ (s2 = Success \/ s2 = Error) /\
    (s1 = Success <->
       exists v, settle (Normal r1) = Done v /\
                 (optional (callback ≫= onSuccess) v (app w3)).1 = Normal tt) /\
    (s2 = Success <->
       exists v, settle (Normal r2) = Done v /\
                 (optional (callback ≫= onSuccess) v (app w2)).1 = Normal tt).
Proof.
  intros Hret Hs1 Hs2 Hr1 Hr2 w3 w4.
  assert (Hresume : forall p r (w : World (U:=U)),
    settle (Normal r) <> Suspended ->
    exists s, writes (execute_resume callback p r w).2 = s :: writes w /\
      (s = Success \/ s = Error) /\
      (s = Success <->
         exists v, settle (Normal r) = Done v /\
                   (optional (callback ≫= onSuccess) v (app w)).1 = Normal tt)).
  { intros p r w Hr. rewrite execute_resume_cases.
    assert (Hcaught := fun e u => caught_returns callback p (writes w) e u Hret).
    simpl in Hcaught. cbv zeta.
    destruct (settle (Normal r)) as [v|e|]; [| |done].
    - destruct (optional (callback ≫= onSuccess) v (app w)) as [[[]|e] u2] eqn:Hs;
        rewrite ?Hcaught; simpl.
      + exists Success. split; [done|]. split; [by left|].
        split; [intros _; exists v; split; [done|by rewrite Hs]|done].
      + exists Error. split; [done|]. split; [by right|].
        split; [done|]. intros (v' & [= <-] & Hn).
        rewrite Hs in Hn. discriminate Hn.
    - rewrite Hcaught; simpl. exists Error. split; [done|]. split; [by right|].
      split; [done|]. by intros (v' & ? & _). }
  assert (Hw1 : writes w1 = Executing :: writes w0).
  { rewrite execute_start_cases in Hs1.
    destruct (action p1 (app w0)) as [[r|e] u1]; simpl in Hs1.
    - by injection Hs1 as _ <-.
    - match type of Hs1 with
      | context [optional ?f ?a ?u] => destruct (optional f a u) as [[[]|?] ?]
      end; discriminate Hs1. }
  assert (Hw2 : writes w2 = Executing :: writes w1).
  { rewrite execute_start_cases in Hs2.
    destruct (action p2 (app w1)) as [[r|e] u1]; simpl in Hs2.
    - by injection Hs2 as _ <-.
    - match type of Hs2 with
      | context [optional ?f ?a ?u] => destruct (optional f a u) as [[[]|?] ?]
      end; discriminate Hs2. }
  destruct (Hresume p2 r2 w2 Hr2) as (s2 & Hwr3 & Hs2cases & Hs2iff).
  destruct (Hresume p1 r1 w3 Hr1) as (s1 & Hwr4 & Hs1cases & Hs1iff).
  exists s1, s2. fold w3 in Hwr3. fold w4 in Hwr4.
  split; [by rewrite Hwr4, Hwr3, Hw2, Hw1|].
  split; [unfold status; by rewrite Hwr4|].
  done.
Qed.

Lemma overlapping_calls_last_settled_wins_witness :
  returns_normally (optional (Some recording ≫= onError)) /\
  execute_start picky_handler (Some recording) no_name {| writes := []; app := [] |}
    = (Awaiting (RPromise (Rejected (VError "boom" ∅))),
       {| writes := [Executing]; app := [] |}) /\
  execute_start picky_handler (Some recording) ada_raw {| writes := [Executing]; app := [] |}
    = (Awaiting (RPromise (Fulfilled ok_output)),
       {| writes := [Executing; Executing]; app := [] |}) /\
  writes (execute_resume (Some recording) no_name (RPromise (Rejected (VError "boom" ∅)))
            (execute_resume (Some recording) ada_raw (RPromise (Fulfilled ok_output))
               {| writes := [Executing; Executing]; app := [] |}).2).2
    = [Error; Success; Executing; Executing].
Proof.
  assert (Hret : returns_normally (optional (Some recording ≫= onError)))
    by (intros a u; reflexivity).
  split; [exact Hret|]. split; [reflexivity|]. split; [reflexivity|].
  destruct (overlapping_calls_last_settled_wins picky_handler (Some recording)
              no_name ada_raw
              (RPromise (Rejected (VError "boom" ∅))) (RPromise (Fulfilled ok_output))
              {| writes := []; app := [] |}
              {| writes := [Executing]; app := [] |}
              {| writes := [Executing; Executing]; app := [] |}
              Hret eq_refl eq_refl)
    as (s1 & s2 & Hw & _ & _ & _ & Hs1 & Hs2).
  - discriminate.
  - discriminate.
  - rewrite Hw. simpl.
    assert (s2 = Success) as -> by (apply Hs2; by exists ok_output).
    destruct s1; try reflexivity.
    + exfalso. destruct Hs1 as [_ Hs1]. by destruct Hs1.
    + exfalso. destruct Hs1 as [_ Hs1]. by destruct Hs1.
    + exfalso. destruct Hs1 as [Hs1 _]. destruct (Hs1 eq_refl) as (v & Hv & _).
      discriminate Hv.
Defined.

(** X11. [reset] while a call is in flight shows [idle] with [loading]
    false, but does not stop the call: when the awaited result settles
    (and [onError], if any, returns), the status written is [success]
    or [error], over the [idle]. *)
Theorem reset_in_flight_is_overwritten {U : Type}
    (action : UserFn (U:=U) value result)
    (callback : option (ActionPropsCallback (U:=U)))
    (payload : value) (r : result) (w w1 : World (U:=U)) :
  returns_normally (optional (callback ≫= onError)) ->
  execute_start action callback payload w = (Awaiting r, w1) ->
  settle (Normal r) <> Suspended ->
  let w2 := (reset w1).2 in
  let w3 := (execute_resume callback payload r w2).2 in
  status w1 = Executing /\
  status w2 = Idle /\ loading (useAction w2) = false /\
  (writes w3 = Success :: Idle :: Executing :: writes w \/
   writes w3 = Error :: Idle :: Executing :: writes w) /\
  status w3 <> Idle.
Proof.
  intros Hret Hstart Hr w2 w3.
  assert (Hw1 : writes w1 = Executing :: writes w).
  { rewrite execute_start_cases in Hstart.
    destruct (action payload (app w)) as [[r'|e] u1]; simpl in Hstart.
    - by injection Hstart as _ <-.
    - match type of Hstart with
      | context [optional ?f ?a ?u] => destruct (optional f a u) as [[[]|?] ?]
      end; discriminate Hstart. }
  assert (Hw2 : writes w2 = Idle :: Executing :: writes w)
    by (unfold w2; simpl; by rewrite Hw1).
  split; [unfold status; by rewrite Hw1|].
  split; [done|]. split; [done|].
  unfold w3, status. rewrite execute_resume_cases.
  assert (Hcaught := fun e u => caught_returns callback payload (writes w2) e u Hret).
  simpl in Hcaught. cbv zeta.
  destruct (settle (Normal r)) as [v|e|]; [| |done].
  - destruct (optional (callback ≫= onSuccess) v (app w2)) as [[[]|e] u2];
      rewrite ?Hcaught; simpl; rewrite Hw1; split; (by left) || (by right) || done.
  - rewrite Hcaught; simpl. rewrite Hw1. split; [by right|done].
Qed.

Lemma reset_in_flight_is_overwritten_witness :
  returns_normally (optional (Some recording ≫= onError)) /\
  execute_start ok_handler (Some recording) ada_raw {| writes := []; app := [] |}
    = (Awaiting (RPromise (Fulfilled ok_output)), {| writes := [Executing]; app := [] |}) /\
  writes (execute_resume (Some recording) ada_raw (RPromise (Fulfilled ok_output))
            (reset {| writes := [Executing]; app := [] |}).2).2
    = [Success; Idle; Executing].
Proof.
  assert (Hret : returns_normally (optional (Some recording ≫= onError)))
    by (intros a u; reflexivity).
  split; [exact Hret|]. split; [reflexivity|].
  destruct (reset_in_flight_is_overwritten ok_handler (Some recording) ada_raw
              (RPromise (Fulfilled ok_output))
              {| writes := []; app := [] |} {| writes := [Executing]; app := [] |}
              Hret eq_refl) as (_ & _ & _ & [Hw|Hw] & _).
  - discriminate.
  - exact Hw.
  - discriminate Hw.
Defined.



(** X13. Whatever the action and the callbacks do, [execute] writes
    [executing] and then at most one of [success] and [error]; it never
    leaves the status [idle]. Its promise fulfils exactly when the
    status has moved on to [success] or [error]; the status is still
    [executing] exactly when the promise stays pending or is rejected. *)
Theorem execute_promise_matches_status {U : Type}
    (action : UserFn (U:=U) value result)
    (callback : option (ActionPropsCallback (U:=U)))
    (payload : value) (w : World (U:=U)) :
  let done := execute action callback payload w in
  (writes done.2 = Executing :: writes w \/
   writes done.2 = Success :: Executing :: writes w \/
   writes done.2 = Error :: Executing :: writes w) /\
  status done.2 <> Idle /\
  (done.1 = Fulfilled VUndefined <-> status done.2 = Success \/ status done.2 = Error) /\
  (status done.2 = Executing <-> done.1 = Pending \/ exists e, done.1 = Rejected e).
Proof.
  intros done. unfold done, status. rewrite execute_cases. cbv zeta.
  destruct (settle (action payload (app w)).1) as [v|e|].
  - destruct (optional (callback ≫= onSuccess) v _) as [[[]|e] u2].
    + simpl. split; [auto|]. split; [done|].
      split; [split; auto|]. split; [done|]. intros [?|[? ?]]; done.
    + destruct (optional (callback ≫= onError) _ u2) as [[[]|e'] u']; simpl.
      * split; [auto|]. split; [done|].
        split; [split; auto|]. split; [done|]. intros [?|[? ?]]; done.
      * split; [auto|]. split; [done|].
        split; [split; [done|by intros [?|?]]|]. split; [|done].
        intros _. right. by exists e'.
  - destruct (optional (callback ≫= onError) _ _) as [[[]|e'] u']; simpl.
    + split; [auto|]. split; [done|].
      split; [split; auto|]. split; [done|]. intros [?|[? ?]]; done.
    + split; [auto|]. split; [done|].
      split; [split; [done|by intros [?|?]]|]. split; [|done].
      intros _. right. by exists e'.
  - simpl. split; [auto|]. split; [done|].
    split; [split; [done|by intros [?|?]]|]. split; [|done]. intros _. by left.
Qed.

(** X14. [execute] has no guard on the status: called at [idle],
    [executing], [success] or [error], after whatever history, it makes
    the same call with the same callbacks, settles its promise the same
    way and leaves the same status. *)
Theorem execute_ignores_prior_status {U : Type}
    (action : UserFn (U:=U) value result)
    (callback : option (ActionPropsCallback (U:=U)))
    (payload : value) (ws1 ws2 : list InvocationStatus) (u : U) :
  let d1 := execute action callback payload {| writes := ws1; app := u |} in
  let d2 := execute action callback payload {| writes := ws2; app := u |} in
  d1.1 = d2.1 /\ app d1.2 = app d2.2 /\ status d1.2 = status d2.2.
Proof.
  intros d1 d2. unfold d1, d2, status. rewrite !execute_cases. cbv zeta. simpl.
  destruct (settle (action payload u).1) as [v|e|]; [| |done].
  - destruct (optional (callback ≫= onSuccess) v _) as [[[]|e] u2]; [done|].
    by destruct (optional (callback ≫= onError) _ u2) as [[[]|e'] u'].
  - by destruct (optional (callback ≫= onError) _ _) as [[[]|e'] u'].
Qed.



(** X16. When the action fails, [onSuccess] is not called: the run is
    the same whatever [onSuccess] is. *)
Theorem failure_never_calls_onSuccess {U : Type}
    (action : UserFn (U:=U) value result)
    (callback1 callback2 : option (ActionPropsCallback (U:=U)))
    (payload : value) (w : World (U:=U)) (e : value) :
  settle (action payload (app w)).1 = Raise e ->
  callback1 ≫= onError = callback2 ≫= onError ->
  execute action callback1 payload w = execute action callback2 payload w.
Proof.
  intros Hfail Hsame. rewrite !execute_cases. cbv zeta.
  by rewrite Hfail, Hsame.
Qed.

Lemma failure_never_calls_onSuccess_witness :
  settle (boom_handler no_name (@nil CallbackEvent)).1 = Raise (VError "boom" ∅) /\
  execute boom_handler (Some recording) no_name {| writes := []; app := [] |}
    = execute boom_handler
        (Some {| onSuccess := Some (fun _ log => (Throw (VStr "never"), log));
                 onError := onError recording |})
        no_name {| writes := []; app := [] |}.
Proof.
  split; [reflexivity|].
  exact (failure_never_calls_onSuccess boom_handler (Some recording)
           (Some {| onSuccess := Some (fun _ log => (Throw (VStr "never"), log));
                    onError := onError recording |})
           no_name {| writes := []; app := [] |} (VError "boom" ∅) eq_refl eq_refl).
Defined.

(** X17. When the action resolves and [onSuccess], if any, returns
    normally, [onError] is not called: the run is the same whatever
    [onError] is. *)
Theorem success_never_calls_onError {U : Type}
    (action : UserFn (U:=U) value result)
    (callback1 callback2 : option (ActionPropsCallback (U:=U)))
    (payload : value) (w : World (U:=U)) (v : value) :
  settle (action payload (app w)).1 = Done v ->
  callback1 ≫= onSuccess = callback2 ≫= onSuccess ->
  (optional (callback1 ≫= onSuccess) v (action payload (app w)).2).1 = Normal tt ->
  execute action callback1 payload w = execute action callback2 payload w.
Proof.
  intros Hok Hsame Hret. rewrite !execute_cases. cbv zeta.
  rewrite Hok, <- Hsame.
  by destruct (optional (callback1 ≫= onSuccess) v _) as [[[]|e] u2].
Qed.

Lemma success_never_calls_onError_witness :
  settle (ok_handler ada_raw tt).1 = Done ok_output /\
  execute ok_handler (Some failing_onError) ada_raw {| writes := []; app := tt |}
    = execute ok_handler None ada_raw {| writes := []; app := tt |}.
Proof.
  split; [reflexivity|].
  exact (success_never_calls_onError ok_handler (Some failing_onError) None
           ada_raw {| writes := []; app := tt |} ok_output eq_refl eq_refl eq_refl).
Defined.

(** X18. Without an [onError] (no options at all, or options without
    that key) a failure is swallowed: the promise of [execute] fulfils,
    the status ends [error], and the application state is as the action
    left it. *)
Theorem failure_without_onError_is_silent {U : Type}
    (action : UserFn (U:=U) value result)
    (callback : option (ActionPropsCallback (U:=U)))
    (payload : value) (w : World (U:=U)) (e : value) :
  callback ≫= onError = None ->
  settle (action payload (app w)).1 = Raise e ->
  execute action callback payload w
    = (Fulfilled VUndefined,
       {| writes := Error :: Executing :: writes w;
          app := (action payload (app w)).2 |}).
Proof.
  intros Hnone Hfail. rewrite execute_cases. cbv zeta.
  by rewrite Hfail, Hnone.
Qed.

Lemma failure_without_onError_is_silent_witness :
  settle (boom_handler no_name tt).1 = Raise (VError "boom" ∅) /\
  execute boom_handler (Some {| onSuccess := None; onError := None |}) no_name
          {| writes := []; app := tt |}
    = (Fulfilled VUndefined, {| writes := [Error; Executing]; app := tt |}).
Proof.
  split; [reflexivity|].
  exact (failure_without_onError_is_silent boom_handler
           (Some {| onSuccess := None; onError := None |}) no_name
           {| writes := []; app := tt |} (VError "boom" ∅) eq_refl eq_refl).
Defined.

(** X19. There is no timeout: while the promise of the action does not
    settle, the promise of [execute] stays pending, no callback is
    called, the status is [executing] and [loading] is true; [reset]
    then shows [idle]. *)
Theorem pending_action_keeps_executing {U : Type}
    (action : UserFn (U:=U) value result)
    (callback : option (ActionPropsCallback (U:=U)))
    (payload : value) (w : World (U:=U)) :
  settle (action payload (app w)).1 = Suspended ->
  let done := execute action callback payload w in
  done = (Pending, {| writes := Executing :: writes w;
                      app := (action payload (app w)).2 |}) /\
  loading (useAction done.2) = true /\
  status (reset done.2).2 = Idle /\
  loading (useAction (reset done.2).2) = false.
Proof.
  intros Hpending done. unfold done. rewrite execute_cases. cbv zeta.
  by rewrite Hpending.
Qed.

Lemma pending_action_keeps_executing_witness :
  settle (pending_handler no_name (@nil CallbackEvent)).1 = Suspended /\
  execute pending_handler (Some recording) no_name {| writes := [Success]; app := [] |}
    = (Pending, {| writes := [Executing; Success]; app := [] |}).
Proof.
  split; [reflexivity|].
  exact (proj1 (pending_action_keeps_executing pending_handler (Some recording) no_name
                  {| writes := [Success]; app := [] |} eq_refl)).
Defined.

(** ** The builder and the invoker together *)

(** X20. An action with a contract run through [execute] on an input
    the contract rejects: the handler is not run, [onError] (which
    returns) is called on the application state as it was, with an
    empty [request], the issues of the contract recorded under their
    joined paths and the input; the status ends [error]. *)
Theorem rejected_input_end_to_end {U : Type} (h h' : heap) (this : addr)
    (c : ZodType) (fn : UserFn (U:=U) value result)
    (callback : option (ActionPropsCallback (U:=U)))
    (data : value) (issues : list ZodIssue) (w : World (U:=U)) :
  get_schema h this = Some c ->
  heap_evolves h h' ->
  safeParse c data = SafeParseError issues ->
  returns_normally (optional (callback ≫= onError)) ->
  execute (action h this fn h') callback data w
    = (Fulfilled VUndefined,
       {| writes := Error :: Executing :: writes w;
          app := (optional (callback ≫= onError)
                    {| error := {| request := VObj ∅;
                                   validation := fold_left record_issue issues ∅ |};
                       input := data |} (app w)).2 |}).
Proof.
  intros Hs Hev Hrej Hret. rewrite execute_cases. cbv zeta.
  rewrite (action_with_schema h h' this c) by done. rewrite Hrej. simpl.
  apply (caught_returns callback data (Executing :: writes w) (VZodError issues)
           (app w) Hret).
Qed.

Lemma rejected_input_end_to_end_witness :
  get_schema [Some name_schema] 0 = Some name_schema /\
  safeParse name_schema no_name = SafeParseError [mkIssue [PKey "name"] "Required"] /\
  returns_normally (optional (Some recording ≫= onError)) /\
  execute (action [Some name_schema] 0 ok_handler [Some name_schema]) (Some recording)
          no_name {| writes := []; app := [] |}
    = (Fulfilled VUndefined,
       {| writes := [Error; Executing];
          app := [ErrorCalled
                    {| error := {| request := VObj ∅;
                                   validation := {[ "name" := "Required" ]} |};
                       input := no_name |}] |}).
Proof.
  assert (Hret : returns_normally (optional (Some recording ≫= onError)))
    by (intros a u; reflexivity).
  split; [reflexivity|]. split; [reflexivity|]. split; [exact Hret|].
  exact (rejected_input_end_to_end [Some name_schema] [Some name_schema] 0 name_schema
           ok_handler (Some recording) no_name _ {| writes := []; app := [] |}
           eq_refl (rtc_refl _ _) eq_refl Hret).
Defined.

(** X21. An action with a contract run through [execute] on an input
    the contract accepts, with a handler whose result settles to a
    value and an [onSuccess] that returns: the handler runs on the
    input, [onSuccess] runs on the value, in the state the handler
    left, and the status ends [success]. *)
Theorem accepted_input_end_to_end {U : Type} (h h' : heap) (this : addr)
    (c : ZodType) (fn : UserFn (U:=U) value result)
    (callback : option (ActionPropsCallback (U:=U)))
    (data parsed v : value) (w : World (U:=U)) :
  get_schema h this = Some c ->
  heap_evolves h h' ->
  safeParse c data = SafeParseSuccess parsed ->
  settle (fn data (app w)).1 = Done v ->
  (optional (callback ≫= onSuccess) v (fn data (app w)).2).1 = Normal tt ->
  execute (action h this fn h') callback data w
    = (Fulfilled VUndefined,
       {| writes := Success :: Executing :: writes w;
          app := (optional (callback ≫= onSuccess) v (fn data (app w)).2).2 |}).
Proof.
  intros Hs Hev Hok Hv Hret. rewrite execute_cases. cbv zeta.
  rewrite (action_with_schema h h' this c) by done. rewrite Hok, Hv.
  by destruct (optional (callback ≫= onSuccess) v _) as [[[]|e] u2].
Qed.

Lemma accepted_input_end_to_end_witness :
  get_schema [Some name_schema] 0 = Some name_schema /\
  safeParse name_schema ada_raw = SafeParseSuccess ada_parsed /\
  execute (action [Some name_schema] 0 ok_handler [Some name_schema]) (Some recording)
          ada_raw {| writes := []; app := [] |}
    = (Fulfilled VUndefined,
       {| writes := [Success; Executing]; app := [SuccessCalled ok_output] |}).
Proof.
  split; [reflexivity|]. split; [reflexivity|].
  exact (accepted_input_end_to_end [Some name_schema] [Some name_schema] 0 name_schema
           ok_handler (Some recording) ada_raw ada_parsed ok_output
           {| writes := []; app := [] |}
           eq_refl (rtc_refl _ _) eq_refl eq_refl eq_refl).
Defined.
